(** * The chat front end (chat-frontend/app.tsx)

    A shallow embedding of the [App] component: its state, the asynchronous
    [handleSend] pipeline that posts the prompt and folds the streamed reply
    into the conversation, and the view it renders. *)

From Stdlib Require Import Strings.String Strings.Ascii Strings.Byte NArith Bool Lia.
From stdpp Require Import list.

Set Default Proof Using "Type".

Local Open Scope string_scope.
Local Open Scope list_scope.

(** ** JavaScript strings

    A JavaScript string is a sequence of UTF-16 code units. *)

Abbreviation jsstring := (list N) (only parsing).

Module JS.

(** A literal of the source, all of whose characters are 7-bit. *)
Definition lit (s : string) : jsstring :=
  map N_of_ascii (list_ascii_of_string s).

(** [WhiteSpace] and [LineTerminator] of ECMAScript, the code units that
    [String.prototype.trim] strips. *)
Definition isWhiteSpace (c : N) : bool :=
  ((0x09 <=? c) && (c <=? 0x0D)
   || (c =? 0x20) || (c =? 0xA0) || (c =? 0x1680)
   || (0x2000 <=? c) && (c <=? 0x200A)
   || (c =? 0x2028) || (c =? 0x2029) || (c =? 0x202F)
   || (c =? 0x205F) || (c =? 0x3000) || (c =? 0xFEFF))%N.

Fixpoint trimStart (s : jsstring) : jsstring :=
  match s with
  | c :: s' => if isWhiteSpace c then trimStart s' else s
  | [] => []
  end.

Definition trimEnd (s : jsstring) : jsstring := rev (trimStart (rev s)).

(** [s.trim()] *)
Definition trim (s : jsstring) : jsstring := trimEnd (trimStart s).

(** ToBoolean on a string: only the empty string is falsy. *)
Definition truthy (s : jsstring) : bool :=
  match s with [] => false | _ :: _ => true end.

(** The strings made of white space only, the empty one included. *)
Definition blank (s : jsstring) : bool := forallb isWhiteSpace s.

End JS.

(** ** Data model *)

Inductive MessageType := USER | SYSTEM.

Record Message := { type : MessageType; text : jsstring }.

(** The three [useState] cells of [App]. *)
Record AppState := {
  messages : list Message;
  input : jsstring;
  loading : bool
}.

Definition initialState : AppState :=
  {| messages := []; input := []; loading := false |}.

(** ** The platform: promises, fetch and the body reader *)

(** How an awaited promise ends. [Pending] is a promise that never settles:
    the [async] function stays suspended at that [await]. *)
Inductive Settled (A : Type) :=
| Fulfilled (a : A)
| Rejected
| Pending.
Arguments Fulfilled {A} a.
Arguments Rejected {A}.
Arguments Pending {A}.

(** A [ReadableStreamDefaultReader] from the point of view of its client:
    what each successive [read()] answers.  [value] is a [Uint8Array] or
    [undefined]; a [Uint8Array] is an object, truthy whatever its length. *)
Inductive Reader :=
| ReadResolves (value : option (list byte)) (done : bool) (next : Reader)
| ReadRejects
| ReadPending.

Record Response := { status : N; body : option Reader }.

(** The argument of [fetch]; [prompt] is the field of the object handed to
    [JSON.stringify] for the request body. *)
Record Request := {
  url : jsstring;
  method : string;
  headers : list (string * string);
  prompt : jsstring
}.

(** ** The effects of [handleSend]

    [handleSend] reads [input] as its closure holds it and no other state
    cell: it calls the state setters, [setTimeout] and [fetch].  A run is
    the sequence of those calls together with the way the [async] function
    ends. *)
Inductive Effect :=
| SetLoading (b : bool)
| SetMessages (updater : list Message → list Message)
| SetInput (s : jsstring)
| ScrollTimeout
| FetchCall (req : Request).

Definition Async (A : Type) : Type := list Effect * Settled A.

Definition ret {A} (a : A) : Async A := ([], Fulfilled a).

Definition bind {A B} (m : Async A) (k : A → Async B) : Async B :=
  match m with
  | (log, Fulfilled a) => let '(log', r) := k a in (log ++ log', r)
  | (log, Rejected) => (log, Rejected)
  | (log, Pending) => (log, Pending)
  end.

Notation "x <- m ;; k" := (bind m (fun x => k))
  (at level 100, m at next level, right associativity).
Notation "m ;; k" := (bind m (fun _ => k))
  (at level 100, right associativity).

Definition emit (e : Effect) : Async unit := ([e], Fulfilled tt).

(** [await p] for a promise that settles as [p]. *)
Definition await {A} (p : Settled A) : Async A := ([], p).

Definition setLoading (b : bool) : Async unit := emit (SetLoading b).
Definition setMessages (updater : list Message → list Message) : Async unit :=
  emit (SetMessages updater).
Definition setInput (s : jsstring) : Async unit := emit (SetInput s).

(** [setTimeout(() => chatAreaRef.current?.scrollTo({...}), 0)] *)
Definition scrollToBottomLater : Async unit := emit ScrollTimeout.

(** ** React state: how the setter calls act on the cells

    A functional updater is applied to the conversation current at its turn
    in the queue.  The updater of the read loop is taken with the text
    accumulated when it is queued; React may run it later, when more chunks
    have been added to the same variable, which can only bring an
    intermediate text forward: the last updater runs after the last
    addition. *)
Definition applyEffect (st : AppState) (e : Effect) : AppState :=
  match e with
  | SetLoading b =>
      {| messages := messages st; input := input st; loading := b |}
  | SetMessages updater =>
      {| messages := updater (messages st); input := input st;
         loading := loading st |}
  | SetInput s =>
      {| messages := messages st; input := s; loading := loading st |}
  | ScrollTimeout => st
  | FetchCall _ => st
  end.

Definition run (st : AppState) (log : list Effect) : AppState :=
  fold_left applyEffect log st.

(** Every state the component goes through, one per effect. *)
Fixpoint history (st : AppState) (log : list Effect) : list AppState :=
  match log with
  | [] => []
  | e :: log' => applyEffect st e :: history (applyEffect st e) log'
  end.

(** The requests issued in a run. *)
Definition requests (log : list Effect) : list Request :=
  omap (fun e => match e with FetchCall req => Some req | _ => None end) log.

(** The scroll timeouts and the conversation updates of a run. *)
Definition scrolls (log : list Effect) : nat :=
  length (List.filter
    (fun e => match e with ScrollTimeout => true | _ => false end) log).

Definition updates (log : list Effect) : nat :=
  length (List.filter
    (fun e => match e with SetMessages _ => true | _ => false end) log).

(** ** What a body stream delivers

    The chunks handed out by the successive reads up to the read that
    reports [done]; [None] when a read rejects or stays pending before
    that. *)
Fixpoint delivered (reader : Reader) : option (list (list byte)) :=
  match reader with
  | ReadResolves value done next =>
      let here := match value with Some bytes => [bytes] | None => [] end in
      if done then Some here
      else match delivered next with
           | Some later => Some (here ++ later)
           | None => None
           end
  | ReadRejects => None
  | ReadPending => None
  end.

(** The stream of a body made of the given chunks: one read per chunk, then
    the read that reports the end. *)
Definition streamOf (chunks : list (list byte)) : Reader :=
  foldr (fun bytes next => ReadResolves (Some bytes) false next)
        (ReadResolves None true ReadPending) chunks.

(** The chunks handed out by the reads the loop gets an answer to, whether
    the stream then reports [done], rejects or stays pending. *)
Fixpoint received (reader : Reader) : list (list byte) :=
  match reader with
  | ReadResolves value done next =>
      match value with Some bytes => [bytes] | None => [] end
      ++ (if done then [] else received next)
  | ReadRejects => []
  | ReadPending => []
  end.

(** How the sequence of reads ends for a loop that reads until [done]. *)
Fixpoint ending (reader : Reader) : Settled unit :=
  match reader with
  | ReadResolves _ done next => if done then Fulfilled tt else ending next
  | ReadRejects => Rejected
  | ReadPending => Pending
  end.

(** ** The view *)

#[warnings="-register-all"]
Inductive Element :=
| Tag (name className : string) (children : list Element)
| Keyed (key : nat) (e : Element)
| Text (s : jsstring)
| ReactMarkdown (children : jsstring)
| Icon (name className : string)
| Img (src alt className : string)
| InputEl (value : jsstring) (placeholder : string) (disabled : bool)
| ButtonEl (disabled : bool) (children : list Element).

Definition isType (t u : MessageType) : bool :=
  match t, u with
  | USER, USER | SYSTEM, SYSTEM => true
  | _, _ => false
  end.

(** The body of [messages.map((msg, i) => ...)]. *)
Definition renderMessage (i : nat) (msg : Message) : Element :=
  Keyed i
    (Tag "div"
       (if isType (type msg) USER
        then "self-end bg-slate-200 px-4 py-2 rounded-xl rounded-tr-sm max-w-2/3"
        else "self-start max-w-5/6")
       [Tag "div" "flex space-x-2 items-start"
          ((if isType (type msg) SYSTEM
            then [Icon "SparkleIcon" "w-4 shrink-0 text-blue-500 fill-blue-500"]
            else [])
           ++ [Tag "div" "whitespace-pre-wrap" [ReactMarkdown (text msg)]])]).

Definition welcome : Element :=
  Tag "div" "flex h-full"
    [Tag "div" "self-center mx-auto text-center w-1/2"
       [Tag "h1"
          "bg-linear-to-r from-blue-600 from-30% to-70% to-pink-500 bg-clip-text text-6xl font-extrabold text-transparent mb-2"
          [Text (JS.lit "Ciao!")];
        Tag "p" "text-neutral-500"
          [Text (JS.lit
             "Hai intenzione di iniziare un persorso di formazione su tecnologie Microsoft?");
           Tag "br" "" [];
           Text (JS.lit " Sono qui per aiutarti.")]]].

Definition chatArea (msgs : list Message) : Element :=
  Tag "div" "flex-1 overflow-y-auto py-4"
    [if (length msgs =? 0)%nat then welcome
     else Tag "div" "flex flex-col gap-6 w-1/2 mx-auto"
            (imap renderMessage msgs)].

(** The [disabled] props of [<Input>] and [<Button>]. *)
Definition inputDisabled (st : AppState) : bool := loading st.

Definition buttonDisabled (st : AppState) : bool :=
  loading st || negb (JS.truthy (JS.trim (input st))).

Definition inputRow (st : AppState) : Element :=
  Tag "div" "flex gap-2 w-1/2 mx-auto"
    [InputEl (input st)
       "Chiedi all'assistente virtuale di Computer Gross"
       (inputDisabled st);
     ButtonEl (buttonDisabled st)
       [if loading st then Icon "LoaderCircle" "w-4 animate-spin"
        else Icon "SendHorizonal" "w-4"]].

Definition view (st : AppState) : Element :=
  Tag "div" "flex flex-col h-screen"
    [Tag "div" "flex justify-center py-4"
       [Tag "h3" "text-xl font-semibold"
          [Text (JS.lit "Computer Gross AI Assistant")]];
     chatArea (messages st);
     inputRow st;
     Tag "div" "flex justify-center items-center gap-2 py-4 w-1/2 mx-auto"
       [Img "/computer-gross-logo.svg" "Computer Gross" "h-4";
        Img "/microsoft-logo.svg" "Microsoft" "h-4"]].

(** The texts handed to the markdown transform below an element, each with
    the class of the element that encloses the [<ReactMarkdown>]. *)
Fixpoint markdownNodes (parent : string) (e : Element)
    : list (string * jsstring) :=
  match e with
  | Tag _ className children => flat_map (markdownNodes className) children
  | Keyed _ e' => markdownNodes parent e'
  | ReactMarkdown source => [(parent, source)]
  | ButtonEl _ children => flat_map (markdownNodes "") children
  | Text _ | Icon _ _ | Img _ _ _ | InputEl _ _ _ => []
  end.

(** The texts rendered as they are, as text nodes. *)
Fixpoint literalTexts (e : Element) : list jsstring :=
  match e with
  | Tag _ _ children => flat_map literalTexts children
  | Keyed _ e' => literalTexts e'
  | Text s => [s]
  | ButtonEl _ children => flat_map literalTexts children
  | ReactMarkdown _ | Icon _ _ | Img _ _ _ | InputEl _ _ _ => []
  end.

(** The conversation step the component is meant to take: a message is
    appended, or a trailing SYSTEM message is replaced by a SYSTEM message. *)
Inductive ConvStep : list Message → list Message → Prop :=
| step_append msgs m : ConvStep msgs (msgs ++ [m])
| step_replace init t t' :
    ConvStep (init ++ [{| type := SYSTEM; text := t |}])
             (init ++ [{| type := SYSTEM; text := t' |}]).

(** The USER messages of a conversation, in order. *)
Definition usersOf (msgs : list Message) : list Message :=
  List.filter (fun m => isType (type m) USER) msgs.

(** The [disabled] flags of the controls of a view, in document order. *)
Fixpoint controls (e : Element) : list (string * bool) :=
  match e with
  | Tag _ _ children => flat_map controls children
  | Keyed _ e' => controls e'
  | InputEl _ _ disabled => [("Input", disabled)]
  | ButtonEl disabled _ => [("Button", disabled)]
  | Text _ | ReactMarkdown _ | Icon _ _ | Img _ _ _ => []
  end.

(** The [key] props below an element, in document order. *)
Fixpoint keys (e : Element) : list nat :=
  match e with
  | Tag _ _ children => flat_map keys children
  | Keyed key e' => key :: keys e'
  | ButtonEl _ children => flat_map keys children
  | Text _ | ReactMarkdown _ | Icon _ _ | Img _ _ _ | InputEl _ _ _ => []
  end.

(** The icons below an element, by name, in document order. *)
Fixpoint icons (e : Element) : list string :=
  match e with
  | Tag _ _ children => flat_map icons children
  | Keyed _ e' => icons e'
  | Icon name _ => [name]
  | ButtonEl _ children => flat_map icons children
  | Text _ | ReactMarkdown _ | Img _ _ _ | InputEl _ _ _ => []
  end.

(** The SYSTEM messages of a conversation, in order. *)
Definition systemsOf (msgs : list Message) : list Message :=
  List.filter (fun m => isType (type m) SYSTEM) msgs.



(** One turn of a session: what the user types and sends, and the network as
    it answers at the time of that turn. *)
Record Turn := {
  typed : jsstring;
  network : Request → Settled Response
}.

(** A session is a sequence of turns, each on its own network; [turnOn] is
    what one turn does to the state on a given network. *)
Definition session
    (turnOn : (Request → Settled Response) → AppState → jsstring → AppState)
    (st : AppState) (turns : list Turn) : AppState :=
  fold_left (fun s t => turnOn (network t) s (typed t)) turns st.

(** ** A concrete platform for the examples

    [decode7] is what [TextDecoder] does on chunks of 7-bit bytes, the only
    ones the examples use. *)
Definition decode7 (bytes : list byte) : jsstring := map Byte.to_N bytes.

Definition bytesOf (s : string) : list byte := list_byte_of_string s.

Definition backend : jsstring := JS.lit "http://localhost:8000".

Definition replies (res : Response) : Request → Settled Response :=
  fun _ => Fulfilled res.

Definition msg (t : MessageType) (s : string) : Message :=
  {| type := t; text := JS.lit s |}.

(** The user has typed "Hello" in a fresh page. *)
Definition hello : AppState :=
  {| messages := []; input := JS.lit "Hello"; loading := false |}.

(** "Hello" typed and sent twice, answered "Hi there!" the first time and
    "Hi" the second. *)
Definition twice : list Turn :=
  [{| typed := JS.lit "Hello";
      network := fun _ =>
        Fulfilled {| status := 200; body := Some (streamOf
          [bytesOf "Hi"; bytesOf " there"; bytesOf "!"]) |} |};
   {| typed := JS.lit "Hello";
      network := fun _ =>
        Fulfilled {| status := 200;
                     body := Some (streamOf [bytesOf "Hi"]) |} |}].

(** "Hello" is in the field while an exchange is under way. *)
Definition busy : AppState :=
  {| messages := [msg USER "Hi"]; input := JS.lit "Hello"; loading := true |}.

(** Three spaces in the field. *)
Definition spaces : AppState :=
  {| messages := [msg USER "Hi"; msg SYSTEM "Hi there!"];
     input := JS.lit "   "; loading := false |}.

Definition hiThere : list (list byte) :=
  [bytesOf "Hi"; bytesOf " there"; bytesOf "!"].

Definition ok (chunks : list (list byte)) : Response :=
  {| status := 200; body := Some (streamOf chunks) |}.

Definition serverError : Response :=
  {| status := 500; body := Some (streamOf hiThere) |}.

(** A body that hands out "Hi" and whose next read rejects: the
    connection drops. *)
Definition dropped : Response :=
  {| status := 200;
     body := Some (ReadResolves (Some (bytesOf "Hi")) false ReadRejects) |}.

(** A network on which [fetch] rejects. *)
Definition offline : Request → Settled Response := fun _ => Rejected.

(** ** handleSend *)

Definition failureText : jsstring :=
  JS.lit "Something went wrong. Please try later.".

Section HandleSend.

(** [import.meta.env.VITE_CHAT_BACKEND], [new TextDecoder().decode] and
    the network answering [fetch]. *)
Variable VITE_CHAT_BACKEND : jsstring.
Variable decode : list byte → jsstring.
Variable fetch : Request → Settled Response.

Definition chatRequest (input : jsstring) : Request :=
  {| url := VITE_CHAT_BACKEND ++ JS.lit "/chat";
     method := "POST";
     headers := [("Content-Type", "application/json")];
     prompt := input |}.

(** The updater of the read loop, closed over the text accumulated so
    far.  [msgs[msgs.length - 1]] is [undefined] on the empty array, and
    [msgs.slice(0, -1)] is the array without its last element. *)
Definition streamUpdater (response : jsstring)
    (msgs : list Message) : list Message :=
  match last msgs with
  | Some {| type := SYSTEM |} =>
      removelast msgs ++ [{| type := SYSTEM; text := response |}]
  | _ => msgs ++ [{| type := SYSTEM; text := response |}]
  end.

(** [while (!done) { ... }], entered with [done = false]; [response] is
    the accumulator declared before the request. *)
Fixpoint readLoop (reader : Reader) (response : jsstring) : Async unit :=
  match reader with
  | ReadResolves value doneReading reader' =>
      match value with
      | Some bytes =>
          let chunk := decode bytes in
          let response := response ++ chunk in
          setMessages (streamUpdater response) ;;
          scrollToBottomLater ;;
          if doneReading then ret tt else readLoop reader' response
      | None =>
          if doneReading then ret tt else readLoop reader' response
      end
  | ReadRejects => await Rejected
  | ReadPending => await Pending
  end.

Definition handleSend (input : jsstring) : Async unit :=
  if negb (JS.truthy (JS.trim input)) then ret tt else
  setLoading true ;;
  setMessages (fun msgs => msgs ++ [{| type := USER; text := input |}]) ;;
  scrollToBottomLater ;;
  let response : jsstring := [] in
  emit (FetchCall (chatRequest input)) ;;
  res <- await (fetch (chatRequest input)) ;;
  (* if (res.status != 200 || !res.body) ... else ... *)
  match (status res =? 200)%N, body res with
  | true, Some resBody => readLoop resBody response
  | _, _ =>
      setMessages (fun msgs =>
        msgs ++ [{| type := SYSTEM; text := failureText |}])
  end ;;
  setLoading false ;;
  setInput [].

(** One invocation from a rendered state: the handler closes over the
    [input] of that render. *)
Definition send (st : AppState) : Async unit := handleSend (input st).

Definition afterSend (st : AppState) : AppState := run st (fst (send st)).

(** The calls every send that passes the guard starts with, and the calls
    it ends with when it runs to its end. *)
Definition opening (input : jsstring) : list Effect :=
  [SetLoading true;
   SetMessages (fun msgs => msgs ++ [{| type := USER; text := input |}]);
   ScrollTimeout;
   FetchCall (chatRequest input)].

Definition closing : list Effect := [SetLoading false; SetInput []].

Definition failureCall : Effect :=
  SetMessages (fun msgs => msgs ++ [{| type := SYSTEM; text := failureText |}]).

(** The calls of the read loop. *)
Definition streamEffect (e : Effect) : Prop :=
  e = ScrollTimeout ∨ ∃ response, e = SetMessages (streamUpdater response).

(** What follows the opening calls: the failure message and the closing
    calls, or calls of the read loop and closing calls. *)
Definition laterEffect (e : Effect) : Prop :=
  streamEffect e ∨ e = SetLoading false ∨ e = SetInput [].

(** The conversation on display once the given chunks of the reply to [t]
    have come in, [base] being the conversation before the send. *)
Definition shown (base : list Message) (t : jsstring)
    (chunks : list (list byte)) : list Message :=
  base ++ {| type := USER; text := t |}
  :: match chunks with
     | [] => []
     | _ :: _ => [{| type := SYSTEM; text := concat (decode <$> chunks) |}]
     end.

(** The handlers of the controls, in a rendered state:
    [onChange={(e) => setInput(e.target.value)}],
    [onKeyDown={(e) => e.key === "Enter" && handleSend()}] and
    [onClick={handleSend}]. *)
Definition onChange (value : jsstring) : Async unit := setInput value.

Definition onKeyDown (key : jsstring) (st : AppState) : Async unit :=
  if decide (key = JS.lit "Enter") then send st else ret tt.

Definition onClick (st : AppState) : Async unit := send st.


(** The user types [value] in the field, clicks the send button and lets
    the exchange take its course. *)
Definition turn (st : AppState) (value : jsstring) : AppState :=
  let typed := run st (fst (onChange value)) in
  run typed (fst (onClick typed)).

(** * Properties *)

(** ** trim *)

Lemma trimStart_blank s : JS.blank s = true → JS.trimStart s = [].
Proof.
  induction s as [|c s IH]; simpl; [done|].
  intros [Hc Hs]%andb_prop. rewrite Hc. auto.
Qed.

Lemma blank_trimStart s :
  JS.blank (JS.trimStart s) = true → JS.trimStart s = [].
Proof.
  induction s as [|c s IH]; simpl; [done|].
  destruct (JS.isWhiteSpace c) eqn:Hc; [done|].
  simpl. by rewrite Hc.
Qed.

Lemma trimStart_nil_blank s : JS.trimStart s = [] → JS.blank s = true.
Proof.
  induction s as [|c s IH]; simpl; [done|].
  destruct (JS.isWhiteSpace c) eqn:Hc; [auto|done].
Qed.

Lemma blank_rev s : JS.blank (rev s) = JS.blank s.
Proof.
  unfold JS.blank. induction s as [|c s IH]; simpl; [done|].
  rewrite forallb_app, IH. simpl. rewrite andb_true_r. apply andb_comm.
Qed.

Lemma trim_nil s : JS.trim s = [] ↔ JS.blank s = true.
Proof.
  unfold JS.trim, JS.trimEnd. split.
  - intros H. apply trimStart_nil_blank, blank_trimStart.
    rewrite <- blank_rev. apply trimStart_nil_blank.
    apply (f_equal (@rev N)) in H. by rewrite rev_involutive in H.
  - intros H. by rewrite (trimStart_blank s H).
Qed.

(** The guard of [handleSend], [!input.trim()], holds exactly of the blank
    strings. *)
Lemma truthy_trim s : JS.truthy (JS.trim s) = negb (JS.blank s).
Proof.
  destruct (JS.blank s) eqn:Hb.
  - apply trim_nil in Hb. by rewrite Hb.
  - destruct (JS.trim s) eqn:Ht; [|done].
    apply trim_nil in Ht. congruence.
Qed.

(** ** The monad and the state *)

Lemma bind_emit {B} (e : Effect) (k : unit → Async B) :
  bind (emit e) k = (e :: fst (k tt), snd (k tt)).
Proof. unfold bind, emit. by destruct (k tt). Qed.

Lemma run_app st log1 log2 : run st (log1 ++ log2) = run (run st log1) log2.
Proof. apply fold_left_app. Qed.

Lemma history_app st log1 log2 :
  history st (log1 ++ log2) = history st log1 ++ history (run st log1) log2.
Proof.
  revert st. induction log1 as [|e log1 IH]; intros st; simpl; [done|].
  by rewrite IH.
Qed.

(** ** The read loop *)

Local Abbreviation User t := {| type := USER; text := t |}.
Local Abbreviation System t := {| type := SYSTEM; text := t |}.

Lemma streamUpdater_snoc_user response base t :
  streamUpdater response (base ++ [User t])
  = base ++ [User t; System response].
Proof.
  unfold streamUpdater. rewrite last_snoc. by rewrite <- app_assoc.
Qed.

Lemma streamUpdater_snoc_system response base t :
  streamUpdater response (base ++ [System t]) = base ++ [System response].
Proof.
  unfold streamUpdater. by rewrite last_snoc, removelast_last.
Qed.

Lemma streamUpdater_step response msgs :
  ConvStep msgs (streamUpdater response msgs).
Proof.
  destruct (last msgs) as [[[] t]|] eqn:Hlast.
  - unfold streamUpdater. rewrite Hlast. constructor.
  - apply last_Some in Hlast as [init ->].
    rewrite streamUpdater_snoc_system. constructor.
  - unfold streamUpdater. rewrite Hlast. constructor.
Qed.

Lemma readLoop_chunk bytes doneReading next response :
  readLoop (ReadResolves (Some bytes) doneReading next) response
  = let response' := response ++ decode bytes in
    let rest := if doneReading then ret tt else readLoop next response' in
    (SetMessages (streamUpdater response') :: ScrollTimeout :: fst rest,
     snd rest).
Proof.
  cbn -[bind]. unfold setMessages, scrollToBottomLater.
  by rewrite !bind_emit.
Qed.

Lemma readLoop_effects reader response :
  Forall streamEffect (fst (readLoop reader response)).
Proof.
  revert response.
  induction reader as [[bytes|] doneReading next IH| |]; intros response.
  - rewrite readLoop_chunk. simpl.
    constructor; [right; eauto|]. constructor; [by left|].
    destruct doneReading; [constructor|apply IH].
  - simpl. destruct doneReading; [constructor|apply IH].
  - constructor.
  - constructor.
Qed.

Lemma readLoop_delivered reader response chunks :
  delivered reader = Some chunks →
  snd (readLoop reader response) = Fulfilled tt.
Proof.
  revert response chunks.
  induction reader as [[bytes|] doneReading next IH| |];
    intros response chunks; [| |done..].
  - rewrite readLoop_chunk. simpl. destruct doneReading; [done|].
    destruct (delivered next) eqn:Hnext; [|done]. eauto.
  - simpl. destruct doneReading; [done|].
    destruct (delivered next) eqn:Hnext; [|done]. eauto.
Qed.

(** A stream that ends without a chunk leaves no trace. *)
Lemma readLoop_silent reader response :
  delivered reader = Some [] → readLoop reader response = ret tt.
Proof.
  revert response.
  induction reader as [[bytes|] doneReading next IH| |];
    intros response; simpl; [| |done..].
  - destruct doneReading; [done|]. by destruct (delivered next).
  - destruct doneReading; [done|].
    destruct (delivered next) as [[|]|] eqn:Hnext; [|done..].
    intros _. by apply IH.
Qed.

(** Once the SYSTEM message of the exchange is there, holding the text
    accumulated so far, the loop keeps it last and up to date. *)
Lemma readLoop_started reader response chunks st base :
  delivered reader = Some chunks →
  messages st = base ++ [System response] →
  run st (fst (readLoop reader response))
  = {| messages := base ++ [System (response ++ concat (decode <$> chunks))];
       input := input st; loading := loading st |}.
Proof.
  revert response chunks st.
  induction reader as [[bytes|] doneReading next IH| |];
    intros response chunks st; [| |done..].
  - rewrite readLoop_chunk. cbn [delivered fst run fold_left applyEffect].
    intros Hd Hst. rewrite Hst, streamUpdater_snoc_system.
    destruct doneReading.
    + injection Hd as <-. cbn. by rewrite app_nil_r.
    + destruct (delivered next) as [later|] eqn:Hnext; [|done].
      injection Hd as <-.
      fold (run {| messages := base ++ [System (response ++ decode bytes)];
                   input := input st; loading := loading st |}
                (fst (readLoop next (response ++ decode bytes)))).
      rewrite (IH _ later _ eq_refl); [|done]. cbn.
      by rewrite <- app_assoc.
  - cbn [delivered readLoop]. intros Hd Hst. destruct doneReading.
    + injection Hd as <-. cbn. rewrite app_nil_r, <- Hst. by destruct st.
    + destruct (delivered next) as [later|] eqn:Hnext; [|done].
      injection Hd as <-. by apply IH.
Qed.

(** The first chunk appends that SYSTEM message after the USER message. *)
Lemma readLoop_fresh reader response chunks st base t :
  delivered reader = Some chunks →
  chunks ≠ [] →
  messages st = base ++ [User t] →
  run st (fst (readLoop reader response))
  = {| messages :=
         base ++ [User t; System (response ++ concat (decode <$> chunks))];
       input := input st; loading := loading st |}.
Proof.
  revert response chunks st.
  induction reader as [[bytes|] doneReading next IH| |];
    intros response chunks st; [| |done..].
  - rewrite readLoop_chunk. cbn [delivered fst run fold_left applyEffect].
    intros Hd _ Hst. rewrite Hst, streamUpdater_snoc_user.
    destruct doneReading.
    + injection Hd as <-. cbn. by rewrite app_nil_r.
    + destruct (delivered next) as [later|] eqn:Hnext; [|done].
      injection Hd as <-.
      fold (run {| messages :=
                     base ++ [User t; System (response ++ decode bytes)];
                   input := input st; loading := loading st |}
                (fst (readLoop next (response ++ decode bytes)))).
      rewrite (readLoop_started next _ later _ (base ++ [User t]) Hnext).
      * cbn. by rewrite <- !app_assoc.
      * cbn. by rewrite <- app_assoc.
  - cbn [delivered readLoop]. intros Hd Hne Hst. destruct doneReading.
    + by injection Hd as <-.
    + destruct (delivered next) as [later|] eqn:Hnext; [|done].
      injection Hd as <-. by apply IH.
Qed.

(** ** The shape of a run of [handleSend] *)

Lemma handleSend_blank input :
  JS.blank input = true → handleSend input = ret tt.
Proof.
  intros Hb. unfold handleSend.
  by rewrite truthy_trim, Hb.
Qed.

Lemma handleSend_cases input :
  JS.truthy (JS.trim input) = true →
  match fetch (chatRequest input) with
  | Fulfilled res =>
      match (status res =? 200)%N, body res with
      | true, Some reader =>
          let loop := readLoop reader [] in
          handleSend input
          = match snd loop with
            | Fulfilled _ =>
                (opening input ++ fst loop ++ closing, Fulfilled tt)
            | Rejected => (opening input ++ fst loop, Rejected)
            | Pending => (opening input ++ fst loop, Pending)
            end
      | _, _ =>
          handleSend input
          = (opening input ++ failureCall :: closing, Fulfilled tt)
      end
  | Rejected => handleSend input = (opening input, Rejected)
  | Pending => handleSend input = (opening input, Pending)
  end.
Proof.
  intros Hgo. unfold handleSend. rewrite Hgo.
  cbn -[readLoop].
  destruct (fetch _) as [res| |]; [|done..].
  cbn -[readLoop].
  destruct (status res =? 200)%N; [|done].
  destruct (body res) as [reader|]; [|done].
  cbn -[readLoop].
  by destruct (readLoop reader []) as [log [[]| |]].
Qed.

Lemma run_opening st t :
  run st (opening t)
  = {| messages := messages st ++ [User t]; input := input st;
       loading := true |}.
Proof. done. Qed.

Lemma run_closing st log :
  run st (log ++ closing)
  = {| messages := messages (run st log); input := []; loading := false |}.
Proof. by rewrite run_app. Qed.

Lemma history_invariant (I : AppState → Prop) log st :
  I st →
  Forall (fun e => ∀ s, I s → I (applyEffect s e)) log →
  Forall I (history st log).
Proof.
  intros Hst Hlog. revert st Hst.
  induction Hlog as [|e log He _ IH]; intros st Hst; simpl;
    constructor; auto.
Qed.

Lemma run_invariant (I : AppState → Prop) log st :
  I st →
  Forall (fun e => ∀ s, I s → I (applyEffect s e)) log →
  I (run st log).
Proof.
  intros Hst Hlog. revert st Hst.
  induction Hlog as [|e log He _ IH]; intros st Hst; simpl; auto.
Qed.

Lemma handleSend_tail input :
  JS.truthy (JS.trim input) = true →
  ∃ tail,
    fst (handleSend input) = opening input ++ tail
    ∧ (tail = failureCall :: closing ∨ Forall laterEffect tail).
Proof.
  intros Hgo. pose proof (handleSend_cases _ Hgo) as Hrun.
  assert (Forall laterEffect closing) as Hclosing.
  { unfold closing, laterEffect.
    repeat (apply Forall_cons; split); [..|apply Forall_nil]; auto. }
  destruct (fetch _) as [res| |];
    [|rewrite Hrun; exists []; rewrite app_nil_r; auto..].
  destruct (status res =? 200)%N, (body res) as [reader|];
    try (rewrite Hrun; eauto; fail).
  cbn zeta in Hrun.
  assert (Forall laterEffect (fst (readLoop reader []))) as Hloop.
  { eapply Forall_impl; [apply readLoop_effects|]. intros e He. by left. }
  destruct (snd (readLoop reader [])) as [[]| |]; rewrite Hrun; cbn [fst].
  - eexists. split; [done|]. right. by apply Forall_app.
  - eauto.
  - eauto.
Qed.

Lemma handleSend_returns input :
  JS.truthy (JS.trim input) = true →
  snd (handleSend input) = Fulfilled tt →
  ∃ log, fst (handleSend input) = log ++ closing.
Proof.
  intros Hgo. pose proof (handleSend_cases _ Hgo) as Hrun.
  destruct (fetch _) as [res| |]; [|by rewrite Hrun..].
  destruct (status res =? 200)%N, (body res) as [reader|];
    try (rewrite Hrun; intros _;
         by exists (opening input ++ [failureCall])).
  cbn zeta in Hrun.
  destruct (snd (readLoop reader [])) as [[]| |]; rewrite Hrun; [|done..].
  intros _. eexists. cbn [fst]. by rewrite app_assoc.
Qed.

Lemma usersOf_snoc msgs m :
  usersOf (msgs ++ [m])
  = usersOf msgs ++ (if isType (type m) USER then [m] else []).
Proof. unfold usersOf. by rewrite List.filter_app. Qed.

Lemma usersOf_streamUpdater response msgs :
  usersOf (streamUpdater response msgs) = usersOf msgs.
Proof.
  destruct (last msgs) as [[[] t]|] eqn:Hlast.
  - unfold streamUpdater. rewrite Hlast, usersOf_snoc. apply app_nil_r.
  - apply last_Some in Hlast as [init ->].
    by rewrite streamUpdater_snoc_system, !usersOf_snoc.
  - unfold streamUpdater. rewrite Hlast, usersOf_snoc. apply app_nil_r.
Qed.

(** ** The exchange *)

(** C1. After a successful exchange (status 200, readable body) whose
    stream delivers the chunks C1..Cn, n >= 1, and ends, [handleSend] has
    returned and the conversation is the one before the send followed by
    the USER message and one SYSTEM message, whose text is the
    concatenation of the decoded chunks. *)
Theorem streamed_reply_is_one_system_message st res reader chunks :
  JS.truthy (JS.trim (input st)) = true →
  fetch (chatRequest (input st)) = Fulfilled res →
  status res = 200%N →
  body res = Some reader →
  delivered reader = Some chunks →
  1 ≤ length chunks →
  snd (send st) = Fulfilled tt
  ∧ messages (afterSend st)
    = messages st
      ++ [User (input st); System (concat (decode <$> chunks))].
Proof.
  intros Hgo Hfetch Hstatus Hbody Hd Hn.
  pose proof (handleSend_cases _ Hgo) as Hrun.
  rewrite Hfetch, Hstatus, Hbody in Hrun. cbn zeta in Hrun.
  rewrite (readLoop_delivered _ [] _ Hd) in Hrun.
  unfold afterSend, send. rewrite Hrun. cbn [fst snd]. split; [done|].
  rewrite app_assoc, run_closing, run_app. cbn [messages].
  rewrite (readLoop_fresh reader [] chunks _ (messages st) (input st) Hd);
    [done| |done].
  intros ->. simpl in Hn. lia.
Qed.

(** C2. When the response has a status other than 200, or no body, the
    send returns having appended the USER message and exactly one SYSTEM
    message, the fixed failure text; no state on the way holds any other
    SYSTEM message of the exchange. *)
Theorem failed_request_is_one_failure_message st res :
  JS.truthy (JS.trim (input st)) = true →
  fetch (chatRequest (input st)) = Fulfilled res →
  status res ≠ 200%N ∨ body res = None →
  snd (send st) = Fulfilled tt
  ∧ messages (afterSend st)
    = messages st ++ [User (input st); System failureText]
  ∧ Forall (fun s =>
      messages s = messages st
      ∨ messages s = messages st ++ [User (input st)]
      ∨ messages s
        = messages st ++ [User (input st); System failureText])
      (history st (fst (send st))).
Proof.
  intros Hgo Hfetch Hfail.
  pose proof (handleSend_cases _ Hgo) as Hrun. rewrite Hfetch in Hrun.
  assert (send st
          = (opening (input st) ++ failureCall :: closing, Fulfilled tt))
    as Hsend.
  { unfold send. destruct Hfail as [Hstatus%N.eqb_neq| Hbody].
    - by rewrite Hstatus in Hrun.
    - rewrite Hbody in Hrun. by destruct (status res =? 200)%N. }
  unfold afterSend. rewrite Hsend. clear Hrun Hsend.
  split; [done|]. split.
  - cbn -[failureText]. by rewrite <- app_assoc.
  - cbn -[failureText]. rewrite <- app_assoc.
    repeat (apply Forall_cons; split); [..|apply Forall_nil];
      cbn -[failureText]; auto.
Qed.

(** C4. With an empty or white-space-only input the send does nothing:
    no setter is called, so the three state cells are as they were, and
    no request is issued. *)
Theorem blank_input_is_noop st :
  JS.blank (input st) = true →
  send st = ([], Fulfilled tt)
  ∧ afterSend st = st
  ∧ requests (fst (send st)) = [].
Proof.
  intros Hb. unfold afterSend, send.
  by rewrite (handleSend_blank _ Hb).
Qed.

(** C10 as amended. A successful response (status 200, readable body)
    whose stream ends without any read carrying a chunk adds no SYSTEM
    message: the conversation ends with the USER message, the loading
    flag is false again and the input buffer is empty. *)
Theorem chunkless_stream_adds_no_system_message st res reader :
  JS.truthy (JS.trim (input st)) = true →
  fetch (chatRequest (input st)) = Fulfilled res →
  status res = 200%N →
  body res = Some reader →
  delivered reader = Some [] →
  snd (send st) = Fulfilled tt
  ∧ afterSend st
    = {| messages := messages st ++ [User (input st)];
         input := []; loading := false |}.
Proof.
  intros Hgo Hfetch Hstatus Hbody Hd.
  pose proof (handleSend_cases _ Hgo) as Hrun.
  rewrite Hfetch, Hstatus, Hbody in Hrun. cbn zeta in Hrun.
  rewrite (readLoop_silent _ [] Hd) in Hrun.
  unfold afterSend, send. by rewrite Hrun.
Qed.

Lemma laterEffect_users e s :
  laterEffect e →
  usersOf (messages (applyEffect s e)) = usersOf (messages s).
Proof.
  intros [[->|[response ->]]|[->| ->]]; cbn; [done| |done..].
  apply usersOf_streamUpdater.
Qed.

Lemma laterEffect_trailing base t e s :
  laterEffect e →
  (messages s = base ++ [User t]
   ∨ ∃ r, messages s = base ++ [User t; System r]) →
  messages (applyEffect s e) = base ++ [User t]
  ∨ ∃ r, messages (applyEffect s e) = base ++ [User t; System r].
Proof.
  intros [[->|[response ->]]|[->| ->]]; cbn; [done| |done..].
  intros [->|[r ->]]; right; exists response.
  - apply streamUpdater_snoc_user.
  - change [User t; System r] with ([User t] ++ [System r]).
    rewrite app_assoc, streamUpdater_snoc_system.
    by rewrite <- app_assoc.
Qed.

(** C5. A send that passes the guard first sets the loading flag and
    appends one USER message holding the input as typed, untrimmed; only
    then is the request issued, and nothing after it adds or changes a
    USER message. *)
Theorem send_appends_the_user_message st :
  JS.truthy (JS.trim (input st)) = true →
  ∃ updater tail,
    fst (send st)
    = SetLoading true :: SetMessages updater :: ScrollTimeout
      :: FetchCall (chatRequest (input st)) :: tail
    ∧ (∀ msgs, updater msgs = msgs ++ [User (input st)])
    ∧ requests tail = []
    ∧ usersOf (messages (afterSend st))
      = usersOf (messages st) ++ [User (input st)].
Proof.
  intros Hgo. unfold afterSend, send.
  destruct (handleSend_tail _ Hgo) as (tail & -> & Htail).
  eexists _, tail. split; [done|]. split; [done|]. split.
  - destruct Htail as [->|Htail]; [done|].
    induction Htail as [|e tail [[->|[r ->]]|[->| ->]] _ IH]; done.
  - rewrite run_app, run_opening. destruct Htail as [->|Htail].
    + cbn -[failureText]. by rewrite !usersOf_snoc, app_nil_r.
    + apply (run_invariant (fun s =>
        usersOf (messages s) = usersOf (messages st) ++ [User (input st)])).
      * cbn. by rewrite usersOf_snoc.
      * eapply Forall_impl; [exact Htail|]. intros e He s Hs.
        by rewrite laterEffect_users.
Qed.

(** C6. Once a send that passed the guard has returned, the loading flag
    is false and the input buffer is the empty string; and the send does
    return in the failure branch (status other than 200, or no body) and
    in the success branch when the stream ends. *)
Theorem completed_exchange_resets_loading_and_input st :
  JS.truthy (JS.trim (input st)) = true →
  (snd (send st) = Fulfilled tt →
   loading (afterSend st) = false ∧ input (afterSend st) = [])
  ∧ (∀ res,
       fetch (chatRequest (input st)) = Fulfilled res →
       (status res ≠ 200%N ∨ body res = None
        ∨ ∃ reader chunks,
            body res = Some reader ∧ delivered reader = Some chunks) →
       snd (send st) = Fulfilled tt).
Proof.
  intros Hgo. split.
  - intros Hret. unfold afterSend, send in *.
    destruct (handleSend_returns _ Hgo Hret) as [log ->].
    by rewrite run_closing.
  - intros res Hfetch Hend. unfold send.
    pose proof (handleSend_cases _ Hgo) as Hrun. rewrite Hfetch in Hrun.
    destruct (status res =? 200)%N eqn:Hstatus;
      [|by rewrite Hrun].
    destruct (body res) as [reader|] eqn:Hbody; [|by rewrite Hrun].
    apply N.eqb_eq in Hstatus.
    destruct Hend as [?|[?|(reader' & chunks & [= <-] & Hd)]]; [done..|].
    cbn zeta in Hrun.
    by rewrite (readLoop_delivered _ [] _ Hd) in Hrun; rewrite Hrun.
Qed.

(** C7. Every updater [handleSend] passes to [setMessages] appends one
    message or replaces a trailing SYSTEM message by a SYSTEM message,
    whatever conversation it is applied to, so no message but the last is
    ever touched; and all along a send the conversation is the one before
    the send, followed at most by the USER message and one SYSTEM
    message, the only one that is extended. *)
Theorem conversation_appended_or_last_system_replaced st :
  Forall (fun e =>
      match e with
      | SetMessages updater => ∀ msgs, ConvStep msgs (updater msgs)
      | _ => True
      end)
    (fst (send st))
  ∧ Forall (fun s =>
      messages s = messages st
      ∨ messages s = messages st ++ [User (input st)]
      ∨ ∃ t, messages s = messages st ++ [User (input st); System t])
    (history st (fst (send st))).
Proof.
  unfold send.
  destruct (JS.truthy (JS.trim (input st))) eqn:Hgo.
  2:{ rewrite truthy_trim in Hgo. apply negb_false_iff in Hgo.
      rewrite (handleSend_blank _ Hgo). split; constructor. }
  destruct (handleSend_tail _ Hgo) as (tail & -> & Htail). split.
  - apply Forall_app. split.
    { unfold opening.
      repeat (apply Forall_cons; split); [..|apply Forall_nil];
        try done.
      intros msgs. constructor. }
    destruct Htail as [->|Htail].
    + unfold failureCall, closing.
      repeat (apply Forall_cons; split); [..|apply Forall_nil];
        try done.
      intros msgs. constructor.
    + eapply Forall_impl; [exact Htail|].
      intros e [[->|[response ->]]|[->| ->]]; try done.
      intros msgs. apply streamUpdater_step.
  - rewrite history_app, run_opening. apply Forall_app. split.
    { cbn. repeat (apply Forall_cons; split); [..|apply Forall_nil];
        cbn; auto. }
    destruct Htail as [->|Htail].
    + cbn -[failureText]. rewrite <- app_assoc.
      repeat (apply Forall_cons; split); [..|apply Forall_nil];
        cbn -[failureText]; eauto.
    + eapply Forall_impl.
      * apply (history_invariant (fun s =>
          messages s = messages st ++ [User (input st)]
          ∨ ∃ r, messages s = messages st ++ [User (input st); System r])).
        -- by left.
        -- eapply Forall_impl; [exact Htail|].
           intros e He s. by apply laterEffect_trailing.
      * cbn beta. tauto.
Qed.



(** ** Beyond the exchange that runs to its end *)

Lemma readLoop_ending reader response :
  snd (readLoop reader response) = ending reader.
Proof.
  revert response.
  induction reader as [[bytes|] doneReading next IH| |]; intros response;
    [| |done..].
  - rewrite readLoop_chunk. cbn. by destruct doneReading.
  - cbn. by destruct doneReading.
Qed.

Lemma scrolls_app log1 log2 :
  scrolls (log1 ++ log2) = scrolls log1 + scrolls log2.
Proof. unfold scrolls. by rewrite List.filter_app, length_app. Qed.

Lemma updates_app log1 log2 :
  updates (log1 ++ log2) = updates log1 + updates log2.
Proof. unfold updates. by rewrite List.filter_app, length_app. Qed.

Lemma readLoop_counts reader response :
  scrolls (fst (readLoop reader response)) = length (received reader)
  ∧ updates (fst (readLoop reader response)) = length (received reader).
Proof.
  revert response.
  induction reader as [[bytes|] doneReading next IH| |]; intros response;
    [| |done..].
  - rewrite readLoop_chunk. cbn [fst received length app].
    destruct doneReading; [done|].
    destruct (IH (response ++ decode bytes)) as [Hs Hu].
    unfold scrolls, updates in *. cbn. by rewrite Hs, Hu.
  - cbn [readLoop received app]. destruct doneReading; [done|]. apply IH.
Qed.

Lemma concat_decode_snoc seen bytes :
  concat (decode <$> seen ++ [bytes]) = concat (decode <$> seen) ++ decode bytes.
Proof. rewrite fmap_app, concat_app. cbn. by rewrite app_nil_r. Qed.

Lemma shown_update base t seen bytes :
  streamUpdater (concat (decode <$> seen) ++ decode bytes) (shown base t seen)
  = shown base t (seen ++ [bytes]).
Proof.
  rewrite <- concat_decode_snoc. unfold shown. destruct seen as [|c seen].
  - by rewrite streamUpdater_snoc_user.
  - change (base ++ ?u :: [?m]) with (base ++ [u] ++ [m]).
    by rewrite app_assoc, streamUpdater_snoc_system, <- app_assoc.
Qed.

(** The loop leaves on display exactly what it has received. *)
Lemma readLoop_shows base t reader seen st :
  messages st = shown base t seen →
  run st (fst (readLoop reader (concat (decode <$> seen))))
  = {| messages := shown base t (seen ++ received reader);
       input := input st; loading := loading st |}.
Proof.
  revert seen st.
  induction reader as [[bytes|] doneReading next IH| |]; intros seen st Hst.
  - rewrite readLoop_chunk. cbn [fst run fold_left applyEffect received].
    rewrite Hst, shown_update, <- concat_decode_snoc.
    destruct doneReading.
    + done.
    + fold (run {| messages := shown base t (seen ++ [bytes]);
                   input := input st; loading := loading st |}
                (fst (readLoop next (concat (decode <$> seen ++ [bytes]))))).
      rewrite IH; [|done]. cbn. by rewrite <- app_assoc.
  - cbn [readLoop received app]. destruct doneReading.
    + cbn. rewrite app_nil_r, <- Hst. by destruct st.
    + by apply IH.
  - cbn. rewrite app_nil_r, <- Hst. by destruct st.
  - cbn. rewrite app_nil_r, <- Hst. by destruct st.
Qed.

(** On the way it displays what it has received so far, and touches
    neither the input buffer nor the loading flag. *)
Lemma readLoop_history base t reader seen st :
  messages st = shown base t seen →
  Forall (fun s =>
      input s = input st ∧ loading s = loading st
      ∧ ∃ chunks,
          chunks `prefix_of` seen ++ received reader
          ∧ messages s = shown base t chunks)
    (history st (fst (readLoop reader (concat (decode <$> seen))))).
Proof.
  revert seen st.
  induction reader as [[bytes|] doneReading next IH| |]; intros seen st Hst;
    [| |constructor..].
  - rewrite readLoop_chunk. cbn [fst history applyEffect received].
    rewrite Hst, shown_update, <- concat_decode_snoc.
    assert (seen ++ [bytes]
            `prefix_of` seen ++ [bytes]
                        ++ (if doneReading then [] else received next))
      as Hprefix.
    { rewrite app_assoc. by apply prefix_app_r. }
    constructor; [cbn; eauto|]. constructor; [cbn; eauto|].
    destruct doneReading; [constructor|].
    eapply Forall_impl; [apply IH; done|]. cbn beta.
    intros s (? & ? & chunks & Hchunks & ?). split; [done|]. split; [done|].
    exists chunks. by rewrite <- app_assoc in Hchunks.
  - cbn [readLoop received app]. destruct doneReading; [constructor|].
    by apply IH.
Qed.

(** A run past the guard: the opening calls, then the failure message or
    calls of the read loop, then the closing calls if the run gets there. *)
Lemma handleSend_split input :
  JS.truthy (JS.trim input) = true →
  ∃ mid,
    fst (handleSend input)
    = opening input ++ mid
      ++ match snd (handleSend input) with
         | Fulfilled _ => closing
         | _ => []
         end
    ∧ (mid = [failureCall] ∨ Forall streamEffect mid).
Proof.
  intros Hgo. pose proof (handleSend_cases _ Hgo) as Hrun.
  destruct (fetch _) as [res| |];
    [|rewrite Hrun; exists []; split; [done|right; constructor]..].
  destruct (status res =? 200)%N, (body res) as [reader|];
    try (rewrite Hrun; exists [failureCall]; split; [done|by left]; fail).
  cbn zeta in Hrun. exists (fst (readLoop reader [])).
  split; [|right; apply readLoop_effects].
  destruct (snd (readLoop reader [])) as [[]| |]; rewrite Hrun; cbn [fst snd];
    by rewrite ?app_nil_r.
Qed.

Lemma streamEffect_frame e s :
  streamEffect e →
  loading (applyEffect s e) = loading s ∧ input (applyEffect s e) = input s.
Proof. by intros [->|[response ->]]. Qed.

(** X1. When [fetch] rejects or never settles, the send does not return:
    the USER message has been appended, no SYSTEM message follows, the
    loading flag stays true and the input buffer keeps its text. *)
Theorem failed_fetch_leaves_loading_set st :
  JS.truthy (JS.trim (input st)) = true →
  fetch (chatRequest (input st)) = Rejected
  ∨ fetch (chatRequest (input st)) = Pending →
  snd (send st) ≠ Fulfilled tt
  ∧ (fetch (chatRequest (input st)) = Rejected → snd (send st) = Rejected)
  ∧ afterSend st
    = {| messages := messages st ++ [User (input st)];
         input := input st; loading := true |}.
Proof.
  intros Hgo Hfetch. pose proof (handleSend_cases _ Hgo) as Hrun.
  unfold afterSend, send.
  destruct Hfetch as [Hfetch|Hfetch]; rewrite Hfetch in Hrun; rewrite Hrun;
    cbn [fst snd]; rewrite run_opening; repeat split; try done;
    intros; congruence.
Qed.

(** X2. When the body stream rejects or stalls before reporting the end,
    the send ends as the stream does and never reaches its last two calls:
    the conversation keeps the text received so far (no SYSTEM message if
    no chunk came), the loading flag stays true and the input buffer keeps
    its text. *)
Theorem interrupted_stream_keeps_partial_text st res reader :
  JS.truthy (JS.trim (input st)) = true →
  fetch (chatRequest (input st)) = Fulfilled res →
  status res = 200%N →
  body res = Some reader →
  ending reader ≠ Fulfilled tt →
  snd (send st) = ending reader
  ∧ afterSend st
    = {| messages := shown (messages st) (input st) (received reader);
         input := input st; loading := true |}.
Proof.
  intros Hgo Hfetch Hstatus Hbody Hend.
  pose proof (handleSend_cases _ Hgo) as Hrun.
  rewrite Hfetch, Hstatus, Hbody in Hrun. cbn zeta in Hrun.
  rewrite readLoop_ending in Hrun. unfold afterSend, send.
  assert (handleSend (input st)
          = (opening (input st) ++ fst (readLoop reader []), ending reader))
    as ->.
  { by destruct (ending reader) as [[]| |]. }
  cbn [fst snd]. split; [done|]. rewrite run_app, run_opening.
  by rewrite (readLoop_shows (messages st) (input st) reader []).
Qed.

(** X3. Whatever the network then does, a send that passes the guard
    issues exactly one request: a POST to the backend's [/chat] with the
    JSON content type, whose prompt is the input as typed, untrimmed. *)
Theorem send_issues_one_request st :
  JS.truthy (JS.trim (input st)) = true →
  requests (fst (send st))
  = [{| url := VITE_CHAT_BACKEND ++ JS.lit "/chat";
        method := "POST";
        headers := [("Content-Type", "application/json")];
        prompt := input st |}].
Proof.
  intros Hgo. unfold send.
  destruct (handleSend_split _ Hgo) as (mid & -> & Hmid).
  unfold requests. rewrite !omap_app.
  assert (omap (fun e => match e with FetchCall req => Some req | _ => None end)
            mid = []) as ->.
  { destruct Hmid as [->|Hmid]; [done|].
    induction Hmid as [|e mid [->|[response ->]] _ IH]; done. }
  by destruct (snd (handleSend (input st))).
Qed.

(** X4. While a reply streams in, every conversation the component goes
    through is the one before the send, or that one followed by the USER
    message and, once a chunk has come, one SYSTEM message holding the
    concatenation of a prefix of the chunks received. *)
Theorem display_follows_received_chunks st res reader :
  JS.truthy (JS.trim (input st)) = true →
  fetch (chatRequest (input st)) = Fulfilled res →
  status res = 200%N →
  body res = Some reader →
  Forall (fun s =>
      messages s = messages st
      ∨ ∃ chunks,
          chunks `prefix_of` received reader
          ∧ messages s = shown (messages st) (input st) chunks)
    (history st (fst (send st))).
Proof.
  intros Hgo Hfetch Hstatus Hbody.
  pose proof (handleSend_cases _ Hgo) as Hrun.
  rewrite Hfetch, Hstatus, Hbody in Hrun. cbn zeta in Hrun. unfold send.
  assert (∃ last, fst (handleSend (input st))
                  = opening (input st) ++ fst (readLoop reader []) ++ last
                  ∧ (last = closing ∨ last = [])) as (last & -> & Hlast).
  { destruct (snd (readLoop reader [])) as [[]| |]; rewrite Hrun;
      [exists closing|exists []..]; (split; [|auto]); cbn [fst];
      by rewrite ?app_nil_r. }
  rewrite !history_app, run_opening. repeat (apply Forall_app; split).
  - assert ([] `prefix_of` received reader) by apply prefix_nil.
    cbn. repeat (apply Forall_cons; split); [..|apply Forall_nil];
      cbn; eauto.
  - eapply Forall_impl;
      [by apply (readLoop_history (messages st) (input st) reader [])|].
    cbn beta. intros s (_ & _ & Hs). by right.
  - rewrite (readLoop_shows (messages st) (input st) reader []); [|done].
    assert (received reader `prefix_of` received reader) by done.
    destruct Hlast as [->| ->]; cbn;
      repeat (apply Forall_cons; split); try apply Forall_nil; cbn; eauto.
Qed.

(** X5. A send whose response is a 200 with a body updates the
    conversation and schedules a scroll once for the USER message and once
    for each chunk received; in the failure branch the conversation is
    updated twice and only the first update is followed by a scroll. *)
Theorem updates_and_scrolls_of_a_send st res :
  JS.truthy (JS.trim (input st)) = true →
  fetch (chatRequest (input st)) = Fulfilled res →
  (∀ reader,
     status res = 200%N → body res = Some reader →
     updates (fst (send st)) = 1 + length (received reader)
     ∧ scrolls (fst (send st)) = 1 + length (received reader))
  ∧ (status res ≠ 200%N ∨ body res = None →
     updates (fst (send st)) = 2 ∧ scrolls (fst (send st)) = 1).
Proof.
  intros Hgo Hfetch. pose proof (handleSend_cases _ Hgo) as Hrun.
  rewrite Hfetch in Hrun. unfold send. split.
  - intros reader Hstatus Hbody. rewrite Hstatus, Hbody in Hrun.
    cbn zeta in Hrun.
    destruct (readLoop_counts reader []) as [Hs Hu].
    destruct (snd (readLoop reader [])) as [[]| |]; rewrite Hrun;
      cbn [fst]; rewrite ?updates_app, ?scrolls_app, Hs, Hu; cbn; lia.
  - intros Hfail.
    assert (handleSend (input st)
            = (opening (input st) ++ failureCall :: closing, Fulfilled tt))
      as ->; [|done].
    destruct Hfail as [Hstatus%N.eqb_neq|Hbody].
    + by rewrite Hstatus in Hrun.
    + rewrite Hbody in Hrun. by destruct (status res =? 200)%N.
Qed.

(** X6. From its first call on and until its last two calls, which it makes
    only if it returns, a send that passes the guard keeps the loading flag
    true and the input buffer as typed. *)
Theorem loading_and_input_held_during_exchange st :
  JS.truthy (JS.trim (input st)) = true →
  ∃ calls,
    fst (send st)
    = calls ++ match snd (send st) with
               | Fulfilled _ => [SetLoading false; SetInput []]
               | _ => []
               end
    ∧ Forall (fun s => loading s = true ∧ input s = input st)
        (history st calls).
Proof.
  intros Hgo. unfold send.
  destruct (handleSend_split _ Hgo) as (mid & Hlog & Hmid).
  exists (opening (input st) ++ mid). split.
  { by rewrite <- app_assoc. }
  rewrite history_app, run_opening. apply Forall_app. split.
  - cbn. repeat (apply Forall_cons; split); [..|apply Forall_nil]; done.
  - apply history_invariant; [done|]. destruct Hmid as [->|Hmid].
    + apply Forall_cons. split; [by intros s Hs|by apply Forall_nil].
    + eapply Forall_impl; [exact Hmid|]. intros e He s [Hl Hi].
      destruct (streamEffect_frame e s He) as [-> ->]. done.
Qed.

(** X7. With no exchange under way, a key pressed in the text field has an
    effect exactly when it is Enter and the send button is enabled, and
    Enter then does what a click on the button does. *)
Theorem enter_sends_iff_button_enabled key st :
  loading st = false →
  (onKeyDown key st ≠ ret tt
   ↔ key = JS.lit "Enter" ∧ buttonDisabled st = false)
  ∧ (key = JS.lit "Enter" → onKeyDown key st = onClick st).
Proof.
  intros Hloading. unfold onKeyDown, onClick, buttonDisabled.
  rewrite Hloading, truthy_trim, negb_involutive. cbn [orb].
  destruct (decide (key = JS.lit "Enter")) as [Hkey|Hkey].
  - split; [|done]. destruct (JS.blank (input st)) eqn:Hb.
    + unfold send. rewrite (handleSend_blank _ Hb). by split; [|intros []].
    + split; [done|]. intros _ Hsend.
      assert (JS.truthy (JS.trim (input st)) = true) as Hgo.
      { by rewrite truthy_trim, Hb. }
      destruct (handleSend_tail _ Hgo) as (tail & Hlog & _).
      unfold send in Hsend. by rewrite Hsend in Hlog.
  - split; [|done]. by split; [|intros []].
Qed.

(** X10. A later update of the read loop absorbs an earlier one: applying
    two of its updaters in a row gives what the second alone gives, so the
    conversation does not depend on how the updates are batched. *)
Theorem later_stream_update_absorbs_earlier response1 response2 msgs :
  streamUpdater response2 (streamUpdater response1 msgs)
  = streamUpdater response2 msgs.
Proof.
  destruct (last msgs) as [[[] t]|] eqn:Hlast.
  - apply last_Some in Hlast as [init ->].
    rewrite !streamUpdater_snoc_user.
    change (init ++ [?u; ?m]) with (init ++ [u] ++ [m]).
    by rewrite !app_assoc, streamUpdater_snoc_system.
  - apply last_Some in Hlast as [init ->].
    by rewrite !streamUpdater_snoc_system.
  - apply last_None in Hlast as ->.
    apply (streamUpdater_snoc_system response2 [] response1).
Qed.

Lemma delivered_received reader chunks :
  delivered reader = Some chunks →
  received reader = chunks ∧ ending reader = Fulfilled tt.
Proof.
  revert chunks.
  induction reader as [value doneReading next IH| |]; intros chunks;
    [|done..].
  cbn. destruct doneReading.
  - intros [= <-]. by rewrite app_nil_r.
  - destruct (delivered next) as [later|]; [|done].
    intros [= <-]. by destruct (IH later eq_refl) as [-> ->].
Qed.

(** The state a streamed exchange ends in. *)
Lemma afterSend_streamed st res reader chunks :
  JS.truthy (JS.trim (input st)) = true →
  fetch (chatRequest (input st)) = Fulfilled res →
  status res = 200%N →
  body res = Some reader →
  delivered reader = Some chunks →
  afterSend st
  = {| messages := shown (messages st) (input st) chunks;
       input := []; loading := false |}.
Proof.
  intros Hgo Hfetch Hstatus Hbody Hd.
  pose proof (handleSend_cases _ Hgo) as Hrun.
  rewrite Hfetch, Hstatus, Hbody in Hrun. cbn zeta in Hrun.
  rewrite (readLoop_delivered _ [] _ Hd) in Hrun.
  unfold afterSend, send. rewrite Hrun. cbn [fst].
  rewrite app_assoc, run_closing, run_app, run_opening.
  rewrite (readLoop_shows (messages st) (input st) reader []); [|done].
  by destruct (delivered_received _ _ Hd) as [-> _].
Qed.

Lemma turn_afterSend st value :
  turn st value
  = afterSend {| messages := messages st; input := value;
                 loading := loading st |}.
Proof. done. Qed.

(** The two flags after a run past the guard, by the way the run ends. *)
Lemma afterSend_flags st :
  JS.truthy (JS.trim (input st)) = true →
  loading (afterSend st)
  = match snd (send st) with Fulfilled _ => false | _ => true end
  ∧ input (afterSend st)
    = match snd (send st) with Fulfilled _ => [] | _ => input st end.
Proof.
  intros Hgo. unfold afterSend, send.
  destruct (handleSend_split _ Hgo) as (mid & -> & Hmid).
  rewrite app_assoc, run_app.
  assert (loading (run st (opening (input st) ++ mid)) = true
          ∧ input (run st (opening (input st) ++ mid)) = input st)
    as [Hl Hi].
  { rewrite run_app, run_opening. apply run_invariant; [done|].
    destruct Hmid as [->|Hmid].
    - apply Forall_cons. split; [by intros s Hs|by apply Forall_nil].
    - eapply Forall_impl; [exact Hmid|]. intros e He s [Hl Hi].
      destruct (streamEffect_frame e s He) as [-> ->]. done. }
  by destruct (snd (handleSend (input st))).
Qed.

End HandleSend.

(** ** The view *)

Lemma markdownNodes_messages parent (key : nat → nat) msgs :
  flat_map (markdownNodes parent)
    (imap (fun i => renderMessage (key i)) msgs)
  = (fun m => ("whitespace-pre-wrap", text m)) <$> msgs.
Proof.
  revert key. induction msgs as [|m msgs IH]; intros key; [done|].
  cbn [imap flat_map fmap list_fmap]. rewrite <- (IH (key ∘ S)).
  unfold renderMessage at 1. cbn. by destruct (isType (type m) SYSTEM).
Qed.

Lemma literalTexts_messages (key : nat → nat) msgs :
  flat_map literalTexts (imap (fun i => renderMessage (key i)) msgs) = [].
Proof.
  revert key. induction msgs as [|m msgs IH]; intros key; [done|].
  cbn [imap flat_map]. apply app_nil. split; [|apply (IH (key ∘ S))].
  unfold renderMessage. cbn. by destruct (isType (type m) SYSTEM).
Qed.

Lemma controls_messages (key : nat → nat) msgs :
  flat_map controls (imap (fun i => renderMessage (key i)) msgs) = [].
Proof.
  revert key. induction msgs as [|m msgs IH]; intros key; [done|].
  cbn [imap flat_map]. apply app_nil. split; [|apply (IH (key ∘ S))].
  unfold renderMessage. cbn. by destruct (isType (type m) SYSTEM).
Qed.

Lemma controls_chatArea msgs : controls (chatArea msgs) = [].
Proof.
  unfold chatArea. destruct msgs as [|m msgs]; [done|].
  cbn [length Nat.eqb controls flat_map].
  change (imap renderMessage (m :: msgs))
    with (imap (fun i => renderMessage (id i)) (m :: msgs)).
  by rewrite controls_messages.
Qed.

(** C8 as amended. In a non-empty conversation the text of every message,
    USER as well as SYSTEM, is handed to the markdown transform, inside a
    white-space preserving ([whitespace-pre-wrap]) element; no message text
    is rendered as a literal text node. *)
Theorem every_message_text_goes_through_markdown msgs :
  msgs ≠ [] →
  markdownNodes "" (chatArea msgs)
  = (fun m => ("whitespace-pre-wrap", text m)) <$> msgs
  ∧ literalTexts (chatArea msgs) = [].
Proof.
  intros Hne. unfold chatArea. destruct msgs as [|m msgs]; [done|].
  cbn [length Nat.eqb markdownNodes literalTexts flat_map].
  change (imap renderMessage (m :: msgs))
    with (imap (fun i => renderMessage (id i)) (m :: msgs)).
  by rewrite markdownNodes_messages, literalTexts_messages, !app_nil_r.
Qed.

(** C9 as amended. In every state the view holds the two controls, with
    these flags: the send button is disabled exactly when loading is true
    or the trimmed field content is empty; the text field is disabled
    exactly when loading is true, whatever its content. *)
Theorem controls_disabled_flags st :
  controls (view st)
  = [("Input", loading st); ("Button", loading st || JS.blank (input st))].
Proof.
  unfold view, inputRow, inputDisabled, buttonDisabled.
  cbn [controls flat_map]. rewrite controls_chatArea.
  by rewrite truthy_trim, negb_involutive.
Qed.

Lemma controls_view st :
  controls (view st)
  = [("Input", inputDisabled st); ("Button", buttonDisabled st)].
Proof.
  unfold view, inputRow. cbn [controls flat_map].
  by rewrite controls_chatArea.
Qed.


(** X11. Exchanges compose: when every text typed passes the guard and the
    network of its turn answers it by a 200 whose stream ends, a session
    leaves the conversation it started from followed, turn after turn, by
    the USER message and the SYSTEM message of that turn's reply (none for
    a reply without chunks); no turn touches the messages of an earlier
    one, and the session ends with the loading flag false and the field
    empty. *)
Theorem session_appends_each_exchange VITE_CHAT_BACKEND decode st turns
    (reader : Turn → Reader) (reply : Turn → list (list byte)) :
  Forall (fun t =>
      JS.truthy (JS.trim (typed t)) = true
      ∧ network t (chatRequest VITE_CHAT_BACKEND (typed t))
        = Fulfilled {| status := 200; body := Some (reader t) |}
      ∧ delivered (reader t) = Some (reply t))
    turns →
  messages (session (turn VITE_CHAT_BACKEND decode) st turns)
  = fold_left (fun msgs t => shown decode msgs (typed t) (reply t))
      turns (messages st)
  ∧ (turns ≠ [] →
     loading (session (turn VITE_CHAT_BACKEND decode) st turns) = false
     ∧ input (session (turn VITE_CHAT_BACKEND decode) st turns) = []).
Proof.
  induction turns as [|t turns IH] using rev_ind; [done|].
  intros [Hturns Ht]%Forall_app.
  apply Forall_cons in Ht as [(Hgo & Hfetch & Hd) _].
  destruct (IH Hturns) as [Hmsgs _].
  unfold session in *. rewrite !fold_left_app. cbn [fold_left].
  rewrite turn_afterSend.
  rewrite (afterSend_streamed _ _ _ _
             {| status := 200; body := Some (reader t) |}
             (reader t) (reply t)); [|done..].
  cbn [messages loading input]. by rewrite Hmsgs.
Qed.

Lemma keys_messages (key : nat → nat) msgs :
  flat_map keys (imap (fun i => renderMessage (key i)) msgs)
  = key <$> seq 0 (length msgs).
Proof.
  revert key. induction msgs as [|m msgs IH]; intros key; [done|].
  cbn [imap flat_map length seq fmap list_fmap].
  rewrite <- fmap_S_seq, <- list_fmap_compose, <- (IH (key ∘ S)).
  unfold renderMessage at 1. cbn. by destruct (isType (type m) SYSTEM).
Qed.

Lemma icons_messages (key : nat → nat) msgs :
  flat_map icons (imap (fun i => renderMessage (key i)) msgs)
  = (fun _ => "SparkleIcon") <$> systemsOf msgs.
Proof.
  revert key. induction msgs as [|m msgs IH]; intros key; [done|].
  cbn [imap flat_map].
  etransitivity; [apply (f_equal (app _)), (IH (key ∘ S))|].
  unfold systemsOf, renderMessage. cbn.
  by destruct (isType (type m) SYSTEM).
Qed.

(** X8. After a send that passed the guard and returned, the text field is
    enabled and the send button disabled, the field being empty; after one
    that did not return (the request or the stream failed or stalled) both
    controls are disabled, for good. *)
Theorem controls_after_a_send VITE_CHAT_BACKEND decode fetch st :
  JS.truthy (JS.trim (input st)) = true →
  controls (view (afterSend VITE_CHAT_BACKEND decode fetch st))
  = match snd (send VITE_CHAT_BACKEND decode fetch st) with
    | Fulfilled _ => [("Input", false); ("Button", true)]
    | _ => [("Input", true); ("Button", true)]
    end.
Proof.
  intros Hgo. rewrite controls_view. unfold inputDisabled, buttonDisabled.
  destruct (afterSend_flags VITE_CHAT_BACKEND decode fetch st Hgo)
    as [-> ->].
  by destruct (snd (send VITE_CHAT_BACKEND decode fetch st)).
Qed.

(** X9. The view holds one keyed block per message, keyed by its position
    in the conversation, none for the empty conversation; its icons are one
    sparkle per SYSTEM message, in order, and the glyph of the send button:
    the spinner while loading, the send arrow otherwise. *)
Theorem view_keys_and_icons st :
  keys (view st) = seq 0 (length (messages st))
  ∧ icons (view st)
    = ((fun _ => "SparkleIcon") <$> systemsOf (messages st))
      ++ [if loading st then "LoaderCircle" else "SendHorizonal"].
Proof.
  unfold view, inputRow, chatArea.
  destruct (messages st) as [|m msgs] eqn:Hmsgs.
  { cbn. by destruct (loading st). }
  rewrite <- Hmsgs.
  assert ((length (messages st) =? 0)%nat = false) as ->.
  { by rewrite Hmsgs. }
  change (imap renderMessage (messages st))
    with (imap (fun i => renderMessage (id i)) (messages st)).
  cbn [keys icons flat_map].
  rewrite keys_messages, icons_messages, list_fmap_id.
  destruct (loading st); cbn [keys icons app]; by rewrite !app_nil_r.
Qed.

(** * The properties at work

    The scenarios of the specification, run on the concrete platform. *)

Lemma streamed_reply_hello :
  JS.truthy (JS.trim (input hello)) = true
  ∧ snd (send backend decode7 (replies (ok hiThere)) hello) = Fulfilled tt
  ∧ messages (afterSend backend decode7 (replies (ok hiThere)) hello)
    = [msg USER "Hello"; msg SYSTEM "Hi there!"].
Proof.
  split; [reflexivity|].
  apply (streamed_reply_is_one_system_message backend decode7
           (replies (ok hiThere)) hello (ok hiThere) (streamOf hiThere)
           hiThere);
    [reflexivity..|simpl; lia].
Defined.

Lemma failed_request_hello :
  status serverError ≠ 200%N
  ∧ snd (send backend decode7 (replies serverError) hello) = Fulfilled tt
  ∧ messages (afterSend backend decode7 (replies serverError) hello)
    = [msg USER "Hello";
       msg SYSTEM "Something went wrong. Please try later."].
Proof.
  split; [discriminate|].
  destruct (failed_request_is_one_failure_message backend decode7
              (replies serverError) hello serverError)
    as (Hret & Hmsgs & _);
    [reflexivity|reflexivity|left; discriminate|].
  split; [exact Hret|exact Hmsgs].
Defined.

Lemma blank_input_spaces :
  JS.blank (input spaces) = true
  ∧ afterSend backend decode7 (replies (ok hiThere)) spaces = spaces
  ∧ requests (fst (send backend decode7 (replies (ok hiThere)) spaces)) = [].
Proof.
  split; [reflexivity|].
  apply (blank_input_is_noop backend decode7 (replies (ok hiThere)) spaces).
  reflexivity.
Defined.

Lemma send_appends_hello :
  JS.truthy (JS.trim (input busy)) = true
  ∧ usersOf (messages (afterSend backend decode7 (replies (ok hiThere)) busy))
    = [msg USER "Hi"; msg USER "Hello"].
Proof.
  split; [reflexivity|].
  destruct (send_appends_the_user_message backend decode7
              (replies (ok hiThere)) busy)
    as (updater & tail & _ & _ & _ & Husers); [reflexivity|].
  exact Husers.
Defined.

Lemma completed_exchange_hello :
  loading (afterSend backend decode7 (replies (ok hiThere)) hello) = false
  ∧ input (afterSend backend decode7 (replies (ok hiThere)) hello) = [].
Proof.
  destruct (completed_exchange_resets_loading_and_input backend decode7
              (replies (ok hiThere)) hello)
    as [Hreset Hreturns]; [reflexivity|].
  apply Hreset. apply (Hreturns (ok hiThere)); [reflexivity|].
  right. right. exists (streamOf hiThere), hiThere.
  split; reflexivity.
Defined.


Lemma chunkless_stream_hello :
  delivered (streamOf []) = Some []
  ∧ afterSend backend decode7 (replies (ok [])) hello
    = {| messages := [msg USER "Hello"]; input := []; loading := false |}.
Proof.
  split; [reflexivity|].
  apply (chunkless_stream_adds_no_system_message backend decode7
           (replies (ok [])) hello (ok []) (streamOf []));
    reflexivity.
Defined.

Lemma markdown_for_both_roles :
  markdownNodes "" (chatArea [msg USER "Hello"; msg SYSTEM "Hi there!"])
  = [("whitespace-pre-wrap", JS.lit "Hello");
     ("whitespace-pre-wrap", JS.lit "Hi there!")].
Proof.
  apply (every_message_text_goes_through_markdown
           [msg USER "Hello"; msg SYSTEM "Hi there!"]).
  discriminate.
Defined.

(** "Hello" sent while the network is down. *)
Lemma failed_fetch_hello :
  snd (send backend decode7 offline hello) = Rejected
  ∧ afterSend backend decode7 offline hello
    = {| messages := [msg USER "Hello"]; input := JS.lit "Hello";
         loading := true |}.
Proof.
  destruct (failed_fetch_leaves_loading_set backend decode7 offline hello)
    as (_ & Hrejected & Hstate); [reflexivity|left; reflexivity|].
  split; [apply Hrejected; reflexivity|exact Hstate].
Defined.

(** "Hello" answered by "Hi", then the connection drops. *)
Lemma interrupted_stream_hello :
  snd (send backend decode7 (replies dropped) hello) = Rejected
  ∧ afterSend backend decode7 (replies dropped) hello
    = {| messages := [msg USER "Hello"; msg SYSTEM "Hi"];
         input := JS.lit "Hello"; loading := true |}.
Proof.
  apply (interrupted_stream_keeps_partial_text backend decode7
           (replies dropped) hello dropped
           (ReadResolves (Some (bytesOf "Hi")) false ReadRejects));
    [reflexivity..|discriminate].
Defined.

Lemma one_request_hello :
  requests (fst (send backend decode7 (replies serverError) hello))
  = [{| url := JS.lit "http://localhost:8000/chat";
        method := "POST";
        headers := [("Content-Type", "application/json")];
        prompt := JS.lit "Hello" |}].
Proof.
  apply (send_issues_one_request backend decode7 (replies serverError) hello).
  reflexivity.
Defined.

Lemma display_follows_hiThere :
  Forall (fun s =>
      messages s = []
      ∨ ∃ chunks,
          chunks `prefix_of` hiThere
          ∧ messages s = shown decode7 [] (JS.lit "Hello") chunks)
    (history hello (fst (send backend decode7 (replies (ok hiThere)) hello))).
Proof.
  apply (display_follows_received_chunks backend decode7
           (replies (ok hiThere)) hello (ok hiThere) (streamOf hiThere));
    reflexivity.
Defined.

Lemma updates_and_scrolls_hiThere :
  updates (fst (send backend decode7 (replies (ok hiThere)) hello)) = 4
  ∧ scrolls (fst (send backend decode7 (replies (ok hiThere)) hello)) = 4.
Proof.
  destruct (updates_and_scrolls_of_a_send backend decode7
              (replies (ok hiThere)) hello (ok hiThere))
    as [Hstream _]; [reflexivity..|].
  apply (Hstream (streamOf hiThere)); reflexivity.
Defined.

Lemma loading_held_hello :
  ∃ calls,
    fst (send backend decode7 (replies (ok hiThere)) hello)
    = calls ++ [SetLoading false; SetInput []]
    ∧ Forall (fun s => loading s = true ∧ input s = JS.lit "Hello")
        (history hello calls).
Proof.
  apply (loading_and_input_held_during_exchange backend decode7
           (replies (ok hiThere)) hello).
  reflexivity.
Defined.

Lemma enter_sends_hello :
  buttonDisabled hello = false
  ∧ onKeyDown backend decode7 (replies (ok hiThere)) (JS.lit "Enter") hello
    = onClick backend decode7 (replies (ok hiThere)) hello.
Proof.
  split; [reflexivity|].
  destruct (enter_sends_iff_button_enabled backend decode7
              (replies (ok hiThere)) (JS.lit "Enter") hello)
    as [_ Hclick]; [reflexivity|].
  apply Hclick. reflexivity.
Defined.

Lemma controls_after_failed_fetch :
  controls (view (afterSend backend decode7 offline hello))
  = [("Input", true); ("Button", true)].
Proof.
  apply (controls_after_a_send backend decode7 offline hello).
  reflexivity.
Defined.

(** "Hello" sent twice and answered differently. *)
Lemma session_of_two_turns :
  messages (session (turn backend decode7) initialState twice)
  = [msg USER "Hello"; msg SYSTEM "Hi there!";
     msg USER "Hello"; msg SYSTEM "Hi"].
Proof.
  apply (session_appends_each_exchange backend decode7 initialState twice
           (fun t =>
              match network t (chatRequest backend (typed t)) with
              | Fulfilled {| body := Some reader |} => reader
              | _ => ReadPending
              end)
           (fun t =>
              match network t (chatRequest backend (typed t)) with
              | Fulfilled {| body := Some reader |} => received reader
              | _ => []
              end)).
  unfold twice. repeat (apply Forall_cons; split); [..|by apply Forall_nil];
    repeat split; reflexivity.
Defined.

(** ** Where the specification departs from the code *)


(** C8 as stated fails: the text of a USER message is handed to the
    markdown transform, not rendered as a literal text node. *)
Lemma user_text_is_rendered_as_markdown :
  markdownNodes "" (chatArea [msg USER "# a  b"])
  = [("whitespace-pre-wrap", JS.lit "# a  b")]
  ∧ literalTexts (chatArea [msg USER "# a  b"]) = [].
Proof. split; reflexivity. Qed.

(** C9 as stated fails: with an empty field and nothing in flight the
    condition of the claim holds, and the text field is not disabled. *)
Lemma empty_field_is_not_disabled :
  (loading initialState
   || negb (JS.truthy (JS.trim (input initialState)))) = true
  ∧ inputDisabled initialState = false
  ∧ controls (view initialState) = [("Input", false); ("Button", true)].
Proof. repeat split; reflexivity. Qed.

(** C10 as stated fails: a stream that delivers one chunk, of no bytes,
    has delivered no non-empty chunk, and a SYSTEM message, of empty text,
    is appended. *)
Lemma empty_chunk_adds_a_system_message :
  delivered (streamOf [[]]) = Some [[]]
  ∧ forallb (fun bytes : list byte => (length bytes =? 0)%nat) [[]] = true
  ∧ messages (afterSend backend decode7 (replies (ok [[]])) hello)
    = [msg USER "Hello"; msg SYSTEM ""]
  ∧ messages (afterSend backend decode7 (replies (ok [[]])) hello)
    ≠ [msg USER "Hello"].
Proof. repeat split; try reflexivity. discriminate. Qed.

